(** * KeyValueStore: an in-memory key-value store with nested transactions

    Shallow embedding of [src/kvs/key_value_store.h] and the properties of
    its transaction overlay.

    - [std::unordered_map<std::string, V>] is a [gmap string V];
    - [std::optional<T>] is [option T], [std::nullopt] is [None];
    - [std::vector<...> transactions_] is a list whose LAST element is
      [back()], the topmost (innermost) diff;
    - a range-for over an unordered map is a left fold over [map_to_list]
      (for [Show], whose output depends on the order of the visit, the
      visited sequence is an argument);
    - [uint32_t] results are integers reduced modulo [2^32]. *)

From stdpp Require Import gmap strings list fin_maps pretty.
From Stdlib Require Import ZArith Lia.

Local Open Scope Z_scope.

(** ** Vector helpers *)

(** [v.back() = f(v.back())] on a non-empty vector; nothing on an empty one. *)
Fixpoint update_back {A : Type} (f : A → A) (l : list A) : list A :=
  match l with
  | [] => []
  | x :: l' =>
      match l' with
      | [] => [f x]
      | _ :: _ => x :: update_back f l'
      end
  end.

(** [v.pop_back()]. *)
Definition pop_back {A : Type} (l : list A) : list A := removelast l.

(** [uint32_t] arithmetic. *)
Definition uint32_max : Z := 2 ^ 32.
Definition to_uint32 (n : Z) : Z := n mod uint32_max.

Section Store.
Context {T : Type}.

(** [operator==] of the value type [T]. *)
Variable T_eqb : T → T → bool.

(** The two private members of the class. *)
Record KeyValueStore : Type := mkStore {
  data_ : gmap string T;
  transactions_ : list (gmap string (option T))
}.

(** The default constructor leaves both members empty. *)
Definition new_store : KeyValueStore := mkStore ∅ [].

(** *** BuildVisibleState *)

(** Body of the inner loop of [BuildVisibleState] (and of the base-store
    branch of [Commit]): erase on a tombstone, assign otherwise. *)
Definition apply_entry (result : gmap string T) (kv : string * option T)
  : gmap string T :=
  match kv.2 with
  | None => delete kv.1 result
  | Some v => <[kv.1 := v]> result
  end.

Definition apply_diff (result : gmap string T) (diff : gmap string (option T))
  : gmap string T :=
  foldl apply_entry result (map_to_list diff).

Definition BuildVisibleState (s : KeyValueStore) : gmap string T :=
  foldl apply_diff (data_ s) (transactions_ s).

(** *** Get *)

(** The loop of [Get] over a reverse iterator range; [None] means the loop
    ran to [rend()] without returning. *)
Fixpoint Get_scan (it : list (gmap string (option T))) (key : string)
  : option (option T) :=
  match it with
  | [] => None
  | d :: it' =>
      match d !! key with
      | Some found =>
          match found with
          | None => Some None
          | Some _ => Some found
          end
      | None => Get_scan it' key
      end
  end.

Definition Get (s : KeyValueStore) (key : string) : option T :=
  match Get_scan (reverse (transactions_ s)) key with
  | Some r => r
  | None =>
      match data_ s !! key with
      | Some v => Some v
      | None => None
      end
  end.

(** *** Set and Del *)

Definition Set_ (s : KeyValueStore) (key : string) (value : T) : KeyValueStore :=
  match transactions_ s with
  | _ :: _ =>
      mkStore (data_ s) (update_back (λ back, <[key := Some value]> back) (transactions_ s))
  | [] => mkStore (<[key := value]> (data_ s)) (transactions_ s)
  end.

Definition Del (s : KeyValueStore) (key : string) : KeyValueStore :=
  match transactions_ s with
  | _ :: _ =>
      mkStore (data_ s) (update_back (λ back, <[key := None]> back) (transactions_ s))
  | [] => mkStore (delete key (data_ s)) (transactions_ s)
  end.

(** *** Begin, Commit, Rollback *)

Definition Begin (s : KeyValueStore) : KeyValueStore :=
  mkStore (data_ s) (transactions_ s ++ [∅]).

(** Body of the loop merging into the diff below: plain assignment. *)
Definition merge_entry (below_diff : gmap string (option T)) (kv : string * option T)
  : gmap string (option T) :=
  <[kv.1 := kv.2]> below_diff.

(** [last] is [None] exactly on the empty vector, the early return;
    otherwise it is [back()], moved out before [pop_back()]. *)
Definition Commit (s : KeyValueStore) : KeyValueStore :=
  match last (transactions_ s) with
  | None => s
  | Some top_diff =>
      let txs := pop_back (transactions_ s) in
      match txs with
      | _ :: _ =>
          mkStore (data_ s)
            (update_back (λ below_diff, foldl merge_entry below_diff (map_to_list top_diff)) txs)
      | [] => mkStore (foldl apply_entry (data_ s) (map_to_list top_diff)) txs
      end
  end.

Definition Rollback (s : KeyValueStore) : KeyValueStore :=
  match transactions_ s with
  | [] => s
  | _ :: _ => mkStore (data_ s) (pop_back (transactions_ s))
  end.

(** *** Keys, Values, Count *)

(** [push_back] appends; the [uint32_t] counter of [Count] wraps on
    increment and [static_cast<uint32_t>] reduces [size()] modulo [2^32]. *)
Definition Keys (s : KeyValueStore) (with_value : option T) : list string :=
  let state := BuildVisibleState s in
  foldl (λ keys kv,
           match with_value with
           | Some w => if T_eqb kv.2 w then keys ++ [kv.1] else keys
           | None => keys ++ [kv.1]
           end) [] (map_to_list state).

Definition Values (s : KeyValueStore) : list T :=
  let state := BuildVisibleState s in
  foldl (λ vals kv, vals ++ [kv.2]) [] (map_to_list state).

Definition Count (s : KeyValueStore) (with_value : option T) : Z :=
  let state := BuildVisibleState s in
  match with_value with
  | None => to_uint32 (Z.of_nat (size state))
  | Some w =>
      foldl (λ count kv, if T_eqb kv.2 w then to_uint32 (count + 1) else count)
        0 (map_to_list state)
  end.

(** *** Sequences of calls *)

Inductive Op : Type :=
| OpBegin
| OpSet (key : string) (value : T)
| OpDel (key : string)
| OpCommit
| OpRollback.

Definition step (s : KeyValueStore) (op : Op) : KeyValueStore :=
  match op with
  | OpBegin => Begin s
  | OpSet key value => Set_ s key value
  | OpDel key => Del s key
  | OpCommit => Commit s
  | OpRollback => Rollback s
  end.

Definition run (s : KeyValueStore) (ops : list Op) : KeyValueStore :=
  foldl step s ops.

(** The mutations allowed inside a transaction body: [Set] and [Del]. *)
Inductive Mutation : Type :=
| MutSet (key : string) (value : T)
| MutDel (key : string).

Definition op_of_mutation (m : Mutation) : Op :=
  match m with
  | MutSet key value => OpSet key value
  | MutDel key => OpDel key
  end.

(** *** The Visible State as the specification words it

    Start from the Base Store and apply each layer oldest to newest:
    a tombstone removes the key from the running result, a present value
    overwrites it, a layer that does not mention the key leaves it. *)
Definition overlay (cur : option T) (entry : option (option T)) : option T :=
  match entry with
  | Some (Some v) => Some v
  | Some None => None
  | None => cur
  end.

Definition VisibleState_spec (base : gmap string T)
    (layers : list (gmap string (option T))) (key : string) : option T :=
  foldl (λ cur layer, overlay cur (layer !! key)) (base !! key) layers.

(** The entries of a map whose value equals [v] under [T]'s equality. *)
Definition entries_equal_to (state : gmap string T) (v : T) : list (string * T) :=
  List.filter (λ kv, T_eqb kv.2 v) (map_to_list state).

(** *** Show *)

(** [operator<<] of the value type [T]: the text it writes. *)
Variable T_show : T → string.

(** The line feed that ends every line. *)
Definition newline : string := String (Ascii.ascii_of_nat 10) EmptyString.

(** What one pass of the loop body writes to [std::cout]. *)
Definition show_line (kv : string * T) : string :=
  kv.1 +:+ " : " +:+ T_show kv.2 +:+ newline.

(** The loop of [Show] from a given iterator position: [break] as soon as
    the [uint32_t] counter has reached [max_records], otherwise write one
    line and increment the counter.  [out] is the text written so far, one
    element per line. *)
Fixpoint Show_loop (max_records : Z) (it : list (string * T)) (count : Z)
    (out : list string) : list string :=
  match it with
  | [] => out
  | kv :: it' =>
      if count >=? max_records then out
      else Show_loop max_records it' (to_uint32 (count + 1)) (out ++ [show_line kv])
  end.

(** The order in which the range-for of [Show] visits the entries of
    [state] is the hash table's: it depends on how the table was built and
    not only on the bindings it holds.  [Show] therefore takes the sequence
    of visited entries, [iteration], as an argument; what is known about it
    is [visits state iteration]: every entry of [state] is visited once. *)
Definition visits (state : gmap string T) (iteration : list (string * T)) : Prop :=
  iteration ≡ₚ map_to_list state.

(** [max_records] is a [uint32_t] argument; [iteration] is the sequence in
    which the loop visits [BuildVisibleState()]. *)
Definition Show (iteration : list (string * T)) (max_records : Z) : list string :=
  Show_loop max_records iteration 0 [].

(** *** The entry a call records *)

(** What [Set] and [Del] assign under the key: the value, or [std::nullopt]. *)
Definition entry_of_mutation (m : Mutation) : string * option T :=
  match m with
  | MutSet key value => (key, Some value)
  | MutDel key => (key, None)
  end.

(** *** Bracketing of a call sequence

    [body_depth d ops] follows the number of layers that [ops] has opened
    itself, starting from [d]: [Begin] opens one, [Commit] and [Rollback]
    close one.  It is [None] when a [Commit] or [Rollback] comes while none
    of these layers is open (the call would then close a layer that was
    open before [ops]), and otherwise the number left open at the end. *)
Fixpoint body_depth (d : nat) (ops : list Op) : option nat :=
  match ops with
  | [] => Some d
  | OpBegin :: ops' => body_depth (S d) ops'
  | OpSet _ _ :: ops' | OpDel _ :: ops' => body_depth d ops'
  | OpCommit :: ops' | OpRollback :: ops' =>
      match d with
      | O => None
      | S d' => body_depth d' ops'
      end
  end.

End Store.

Arguments KeyValueStore : clear implicits.
Arguments Op : clear implicits.
Arguments Mutation : clear implicits.

(** *** A family of stores of any size

    [fill_ops n] sets the [n] distinct keys ["k0"], ["k1"], ... to [0], with
    no transaction open. *)
Definition distinct_key (i : nat) : string := "k" +:+ pretty i.

Definition fill_ops (n : nat) : list (Op Z) :=
  (λ i, OpSet (distinct_key i) 0) <$> seq 0 n.

(** ** Facts about the vector helpers *)

Lemma update_back_snoc {A : Type} (f : A → A) (l : list A) (x : A) :
  update_back f (l ++ [x]) = l ++ [f x].
Proof.
  induction l as [|y l IH]; [done|].
  cbn [app update_back]. rewrite IH.
  destruct l; done.
Qed.

Lemma pop_back_snoc {A : Type} (l : list A) (x : A) : pop_back (l ++ [x]) = l.
Proof. apply removelast_last. Qed.

Lemma to_uint32_small (n : Z) : 0 ≤ n < uint32_max → to_uint32 n = n.
Proof. intros Hn. unfold to_uint32. by apply Z.mod_small. Qed.

(** ** Iterating over the entries of one diff *)

Section Iteration.
Context {T : Type}.
Implicit Types (result base : gmap string T).
Implicit Types (diff below : gmap string (option T)).
Implicit Types (key : string).

(** A key that the entries do not mention keeps its binding. *)
Lemma apply_entries_untouched (l : list (string * option T)) result key :
  key ∉ l.*1 → foldl apply_entry result l !! key = result !! key.
Proof.
  revert result. induction l as [|[k e] l IH]; intros result Hk; [done|].
  rewrite fmap_cons, not_elem_of_cons in Hk. destruct Hk as [Hne Hk].
  cbn [foldl]. rewrite IH by done.
  unfold apply_entry; cbn [fst snd] in *.
  destruct e; [by rewrite lookup_insert_ne|by rewrite lookup_delete_ne].
Qed.

(** The entry recorded for a key decides its binding, whatever the
    iteration order, because keys are unique. *)
Lemma apply_entries_hit (l : list (string * option T)) result key e :
  NoDup l.*1 → (key, e) ∈ l → foldl apply_entry result l !! key = e.
Proof.
  revert result. induction l as [|[k e'] l IH]; intros result Hnd Hin.
  - by apply elem_of_nil in Hin.
  - rewrite fmap_cons in Hnd. apply NoDup_cons in Hnd as [Hfresh Hnd].
    cbn [foldl]. apply elem_of_cons in Hin as [Heq|Hin].
    + injection Heq as <- <-. cbn [fst] in Hfresh.
      rewrite apply_entries_untouched by done.
      unfold apply_entry; cbn [fst snd].
      destruct e; [by rewrite lookup_insert_eq|by rewrite lookup_delete_eq].
    + by apply IH.
Qed.

Lemma not_in_map_to_list_fst {V : Type} (m : gmap string V) key :
  m !! key = None → key ∉ (map_to_list m).*1.
Proof.
  intros Hm [[k v] [Hk Hin]]%list_elem_of_fmap. cbn in Hk. subst k.
  apply elem_of_map_to_list in Hin. congruence.
Qed.

Lemma apply_diff_lookup result diff key :
  apply_diff result diff !! key = overlay (result !! key) (diff !! key).
Proof.
  unfold apply_diff. destruct (diff !! key) as [e|] eqn:Hd.
  - rewrite (apply_entries_hit _ _ key e).
    + by destruct e.
    + apply NoDup_fst_map_to_list.
    + by apply elem_of_map_to_list.
  - rewrite apply_entries_untouched; [done|].
    by apply not_in_map_to_list_fst.
Qed.

Lemma merge_entries_untouched (l : list (string * option T)) below key :
  key ∉ l.*1 → foldl merge_entry below l !! key = below !! key.
Proof.
  revert below. induction l as [|[k e] l IH]; intros below Hk; [done|].
  rewrite fmap_cons, not_elem_of_cons in Hk. destruct Hk as [Hne Hk].
  cbn [foldl]. rewrite IH by done.
  unfold merge_entry; cbn [fst snd] in *. by rewrite lookup_insert_ne.
Qed.

Lemma merge_entries_hit (l : list (string * option T)) below key e :
  NoDup l.*1 → (key, e) ∈ l → foldl merge_entry below l !! key = Some e.
Proof.
  revert below. induction l as [|[k e'] l IH]; intros below Hnd Hin.
  - by apply elem_of_nil in Hin.
  - rewrite fmap_cons in Hnd. apply NoDup_cons in Hnd as [Hfresh Hnd].
    cbn [foldl]. apply elem_of_cons in Hin as [Heq|Hin].
    + injection Heq as <- <-. cbn [fst] in Hfresh.
      rewrite merge_entries_untouched by done.
      unfold merge_entry; cbn [fst snd]. by rewrite lookup_insert_eq.
    + by apply IH.
Qed.

(** Merging a diff into the one below it: the popped diff wins. *)
Lemma merge_diff_lookup below diff key :
  foldl merge_entry below (map_to_list diff) !! key =
    match diff !! key with
    | Some e => Some e
    | None => below !! key
    end.
Proof.
  destruct (diff !! key) as [e|] eqn:Hd.
  - apply merge_entries_hit; [apply NoDup_fst_map_to_list|].
    by apply elem_of_map_to_list.
  - apply merge_entries_untouched. by apply not_in_map_to_list_fst.
Qed.

Lemma merge_diff_union below diff :
  foldl merge_entry below (map_to_list diff) = diff ∪ below.
Proof.
  apply map_eq. intros key. rewrite merge_diff_lookup, lookup_union.
  destruct (diff !! key), (below !! key); done.
Qed.

(** *** The fold of [BuildVisibleState] and the scan of [Get] *)

Lemma VisibleState_spec_snoc base (layers : list (gmap string (option T))) diff key :
  VisibleState_spec base (layers ++ [diff]) key =
    overlay (VisibleState_spec base layers key) (diff !! key).
Proof. unfold VisibleState_spec. by rewrite foldl_snoc. Qed.

Lemma BuildVisibleState_lookup (s : KeyValueStore T) key :
  BuildVisibleState s !! key = VisibleState_spec (data_ s) (transactions_ s) key.
Proof.
  destruct s as [base layers]. unfold BuildVisibleState; cbn [data_ transactions_].
  induction layers as [|diff layers IH] using rev_ind; [done|].
  by rewrite VisibleState_spec_snoc, foldl_snoc, apply_diff_lookup, IH.
Qed.

Lemma Get_lookup (s : KeyValueStore T) key :
  Get s key = VisibleState_spec (data_ s) (transactions_ s) key.
Proof.
  destruct s as [base layers]. unfold Get; cbn [data_ transactions_].
  induction layers as [|diff layers IH] using rev_ind.
  - cbn. by destruct (base !! key).
  - rewrite VisibleState_spec_snoc, reverse_snoc. cbn [Get_scan].
    destruct (diff !! key) as [[v|]|]; [done|done|]. exact IH.
Qed.

Lemma Get_BuildVisibleState (s : KeyValueStore T) key :
  Get s key = BuildVisibleState s !! key.
Proof. by rewrite Get_lookup, BuildVisibleState_lookup. Qed.

End Iteration.

(** C1. Visibility equivalence: after any finite sequence of
    Begin/Set/Del/Commit/Rollback calls on a freshly constructed store,
    [Get key] is exactly the binding of [key] in the map that
    [BuildVisibleState] computes, and both are the Visible State of the
    specification (layers folded onto the Base Store oldest to newest,
    tombstones erasing, values overwriting). *)
Theorem visibility_equivalence {T : Type} (ops : list (Op T)) (key : string) :
  let s := run new_store ops in
  Get s key = BuildVisibleState s !! key ∧
  BuildVisibleState s !! key = VisibleState_spec (data_ s) (transactions_ s) key.
Proof.
  intros s. split.
  - apply Get_BuildVisibleState.
  - apply BuildVisibleState_lookup.
Qed.


(** ** The operations on the two shapes of the Diff Stack

    Every stack is either empty or [outer ++ [top]]; the lemmas below
    compute each operation on both shapes. *)

Section Shapes.
Context {T : Type}.
Implicit Types (base : gmap string T).
Implicit Types (top below : gmap string (option T)).
Implicit Types (outer : list (gmap string (option T))).
Implicit Types (key : string) (value : T).

Lemma Set_idle base key value :
  Set_ (mkStore base []) key value = mkStore (<[key := value]> base) [].
Proof. done. Qed.

Lemma Set_in_transaction base outer top key value :
  Set_ (mkStore base (outer ++ [top])) key value =
    mkStore base (outer ++ [<[key := Some value]> top]).
Proof.
  unfold Set_; cbn [data_ transactions_]. rewrite update_back_snoc.
  by destruct outer.
Qed.

Lemma Del_idle base key :
  Del (mkStore base []) key = mkStore (delete key base) [].
Proof. done. Qed.

Lemma Del_in_transaction base outer top key :
  Del (mkStore base (outer ++ [top])) key =
    mkStore base (outer ++ [<[key := None]> top]).
Proof.
  unfold Del; cbn [data_ transactions_]. rewrite update_back_snoc.
  by destruct outer.
Qed.

Lemma Begin_push base (layers : list (gmap string (option T))) :
  Begin (mkStore base layers) = mkStore base (layers ++ [∅]).
Proof. done. Qed.

Lemma Commit_idle base : Commit (mkStore base []) = mkStore base [].
Proof. done. Qed.

Lemma Commit_outermost base top :
  Commit (mkStore base [top]) = mkStore (apply_diff base top) [].
Proof. done. Qed.

Lemma Commit_nested base outer below top :
  Commit (mkStore base (outer ++ [below; top])) =
    mkStore base (outer ++ [top ∪ below]).
Proof.
  change (outer ++ [below; top]) with (outer ++ [below] ++ [top]).
  rewrite app_assoc. unfold Commit; cbn [data_ transactions_].
  rewrite last_snoc, pop_back_snoc, update_back_snoc, merge_diff_union.
  by destruct outer.
Qed.

Lemma Rollback_idle base : Rollback (mkStore base []) = mkStore base [].
Proof. done. Qed.

Lemma Rollback_in_transaction base outer top :
  Rollback (mkStore base (outer ++ [top])) = mkStore base outer.
Proof.
  unfold Rollback; cbn [data_ transactions_]. rewrite pop_back_snoc.
  destruct outer; [done|]. by destruct outer.
Qed.

(** Set and Del calls inside a transaction touch the innermost diff only. *)
Lemma mutations_stay_in_top (muts : list (Mutation T)) base outer top :
  ∃ top', run (mkStore base (outer ++ [top])) (op_of_mutation <$> muts) =
            mkStore base (outer ++ [top']).
Proof.
  revert top. induction muts as [|m muts IH]; intros top; [by exists top|].
  rewrite fmap_cons. unfold run; cbn [foldl]. fold (@run T).
  destruct m as [key value|key]; cbn [op_of_mutation step].
  - rewrite Set_in_transaction. apply IH.
  - rewrite Del_in_transaction. apply IH.
Qed.

(** The scan of [Get] skips the diffs that do not mention the key. *)
Lemma Get_scan_skip (it rest : list (gmap string (option T))) key :
  Forall (λ d, d !! key = None) it →
  Get_scan (it ++ rest) key = Get_scan rest key.
Proof.
  induction 1 as [|d it Hd _ IH]; [done|].
  cbn [app Get_scan]. by rewrite Hd.
Qed.

End Shapes.

(** C2. Commit semantics: on an empty Diff Stack [Commit] changes nothing;
    otherwise the innermost layer [top] is popped and (a) when a layer
    [below] remains, the new innermost layer holds every entry of [top]
    verbatim (value or tombstone) and, for the keys [top] does not
    mention, what [below] held, the deeper layers [outer] and the Base
    Store being unchanged; (b) when no layer remains, the Base Store loses
    the keys [top] marks deleted, takes the values [top] records, and
    keeps its bindings for all other keys. *)
Theorem Commit_semantics {T : Type} (base : gmap string T)
    (outer : list (gmap string (option T))) (below top : gmap string (option T)) :
  Commit (mkStore base []) = mkStore base [] ∧
  (∃ merged,
     Commit (mkStore base (outer ++ [below; top])) = mkStore base (outer ++ [merged]) ∧
     ∀ key, merged !! key =
              match top !! key with
              | Some entry => Some entry
              | None => below !! key
              end) ∧
  (∃ base',
     Commit (mkStore base [top]) = mkStore base' [] ∧
     ∀ key, base' !! key =
              match top !! key with
              | Some None => None
              | Some (Some v) => Some v
              | None => base !! key
              end).
Proof.
  split; [apply Commit_idle|]. split.
  - exists (top ∪ below). split; [apply Commit_nested|].
    intros key. rewrite lookup_union.
    destruct (top !! key), (below !! key); done.
  - exists (apply_diff base top). split; [apply Commit_outermost|].
    intros key. rewrite apply_diff_lookup.
    by destruct (top !! key) as [[v|]|].
Qed.

(** C3. Rollback is a pure undo: from any store state [s], [Begin], then any
    finite sequence of Set/Del calls, then [Rollback] gives back the Base
    Store and the Diff Stack of [s] exactly (the discarded layer is merged
    nowhere), hence the same Visible State and the same answers of [Get]. *)
Theorem Rollback_pure_undo {T : Type} (s : KeyValueStore T) (muts : list (Mutation T)) :
  let s' := Rollback (run (Begin s) (op_of_mutation <$> muts)) in
  data_ s' = data_ s ∧ transactions_ s' = transactions_ s ∧
  BuildVisibleState s' = BuildVisibleState s ∧
  ∀ key, Get s' key = Get s key.
Proof.
  destruct s as [base layers]. rewrite Begin_push.
  destruct (mutations_stay_in_top muts base layers ∅) as [top' ->].
  rewrite Rollback_in_transaction. done.
Qed.

(** ** Resolution of a read *)

Section Resolution.
Context {T : Type}.
Implicit Types (base : gmap string T).
Implicit Types (layer top : gmap string (option T)).
Implicit Types (outer inner layers : list (gmap string (option T))).
Implicit Types (key : string).

Lemma Get_first_hit base outer layer inner key (entry : option T) :
  Forall (λ d, d !! key = None) inner →
  layer !! key = Some entry →
  Get (mkStore base (outer ++ layer :: inner)) key = entry.
Proof.
  intros Hinner Hlayer. unfold Get; cbn [data_ transactions_].
  rewrite reverse_app, reverse_cons, <-app_assoc.
  rewrite Get_scan_skip by (by apply Forall_reverse).
  cbn [app Get_scan]. rewrite Hlayer. by destruct entry.
Qed.

Lemma Get_no_hit base layers key :
  Forall (λ d, d !! key = None) layers →
  Get (mkStore base layers) key = base !! key.
Proof.
  intros Hall. unfold Get; cbn [data_ transactions_].
  rewrite <-(app_nil_r (reverse layers)).
  rewrite Get_scan_skip by (by apply Forall_reverse).
  cbn [Get_scan]. by destruct (base !! key).
Qed.

Lemma Get_top base outer top key (entry : option T) :
  top !! key = Some entry → Get (mkStore base (outer ++ [top])) key = entry.
Proof. intros Htop. by apply Get_first_hit. Qed.

End Resolution.

(** C4. Get resolution order: let [layer] be a layer of the Diff Stack such
    that no layer opened after it ([inner]) has an entry for [key].  If
    [layer] holds a tombstone for [key], [Get] returns absent, whatever
    the older layers ([outer]) and the Base Store hold; if it holds a
    value, [Get] returns that value; and if neither [layer] nor any older
    layer has an entry, [Get] returns the Base Store's binding (its value,
    or absent).  The same holds for every stack none of whose layers has
    an entry for [key], the empty stack included: with no transaction open
    [Get] is the Base Store's binding.  [Get] is a total function from
    stores to optional values: it returns no new store and has no failure
    result. *)
Theorem Get_resolution_order {T : Type} (base : gmap string T)
    (outer inner : list (gmap string (option T))) (layer : gmap string (option T))
    (key : string) :
  Forall (λ d, d !! key = None) inner →
  let s := mkStore base (outer ++ layer :: inner) in
  (layer !! key = Some None → Get s key = None) ∧
  (∀ v, layer !! key = Some (Some v) → Get s key = Some v) ∧
  (layer !! key = None → Forall (λ d, d !! key = None) outer →
   Get s key = base !! key) ∧
  Get (mkStore base []) key = base !! key ∧
  (∀ layers, Forall (λ d, d !! key = None) layers →
             Get (mkStore base layers) key = base !! key).
Proof.
  intros Hinner s. split; [|split; [|split; [|split]]].
  - intros Hlayer. by apply Get_first_hit.
  - intros v Hlayer. by apply Get_first_hit.
  - intros Hlayer Houter. apply Get_no_hit.
    apply Forall_app. split; [done|]. by constructor.
  - apply Get_no_hit. constructor.
  - intros layers Hnone. by apply Get_no_hit.
Qed.

Lemma Get_resolution_order_witness :
  let s := mkStore ({["k" := 7]} : gmap string Z)
             [ {["k" := Some 1]}; {["k" := None]}; {["j" := Some 5]} ] in
  Get s "k" = None ∧ Get s "j" = Some 5 ∧
  Get (mkStore ({["k" := 7]} : gmap string Z) [ ∅; ∅; {["j" := Some 5]} ]) "k" = Some 7 ∧
  Get (mkStore ({["k" := 7]} : gmap string Z) [ {["j" := None]} ]) "k" = Some 7.
Proof.
  intros s. split; [|split; [|split]].
  - apply (Get_resolution_order {["k" := 7]} [ {["k" := Some 1]} ]
             [ {["j" := Some 5]} ] {["k" := None]} "k").
    + repeat constructor.
    + reflexivity.
  - apply (Get_resolution_order {["k" := 7]} [ {["k" := Some 1]}; {["k" := None]} ]
             [] {["j" := Some 5]} "j").
    + constructor.
    + reflexivity.
  - refine (proj1 (proj2 (proj2 (Get_resolution_order {["k" := 7]} [ ∅ ]
                                    [ {["j" := Some 5]} ] ∅ "k" _))) _ _).
    + repeat constructor.
    + reflexivity.
    + repeat constructor.
  - refine (proj2 (proj2 (proj2 (proj2 (Get_resolution_order {["k" := 7]} []
                                           [] ∅ "k" _)))) [ {["j" := None]} ] _).
    + constructor.
    + repeat constructor.
Defined.

(** C5. Set write target and frame: with a non-empty Diff Stack
    [outer ++ [top]], [Set key value] turns the innermost layer [top] into
    [top] with [key] bound to [value] and leaves the outer layers and the
    Base Store as they are; with an empty Diff Stack it binds [key] to
    [value] in the Base Store and the stack stays empty. *)
Theorem Set_write_target {T : Type} (base : gmap string T)
    (outer : list (gmap string (option T))) (top : gmap string (option T))
    (key : string) (value : T) :
  Set_ (mkStore base (outer ++ [top])) key value =
    mkStore base (outer ++ [<[key := Some value]> top]) ∧
  Set_ (mkStore base []) key value = mkStore (<[key := value]> base) [].
Proof. split; [apply Set_in_transaction|apply Set_idle]. Qed.

(** C6. Del semantics: with a non-empty Diff Stack [outer ++ [top]],
    [Del key] records the explicit tombstone for [key] in the innermost
    layer (the layer then has an entry for [key], the deleted marker) and
    touches nothing else, so that [Get key] is absent whatever the outer
    layers and the Base Store hold; with an empty Diff Stack it erases
    [key] from the Base Store, which is left as it was when [key] was not
    bound. *)
Theorem Del_semantics {T : Type} (base : gmap string T)
    (outer : list (gmap string (option T))) (top : gmap string (option T))
    (key : string) :
  let s := Del (mkStore base (outer ++ [top])) key in
  (∃ top', s = mkStore base (outer ++ [top']) ∧
           top' !! key = Some None ∧
           ∀ key', key' ≠ key → top' !! key' = top !! key') ∧
  Get s key = None ∧
  Del (mkStore base []) key = mkStore (delete key base) [] ∧
  (base !! key = None → Del (mkStore base []) key = mkStore base []).
Proof.
  intros s. unfold s. rewrite Del_in_transaction.
  split; [|split; [|split]].
  - exists (<[key := None]> top). split; [done|]. split.
    + apply lookup_insert_eq.
    + intros key' Hne. by apply lookup_insert_ne.
  - apply Get_top, lookup_insert_eq.
  - apply Del_idle.
  - intros Hfree. rewrite Del_idle. by rewrite delete_id.
Qed.

Lemma Del_semantics_witness :
  Del (mkStore ({["a" := 1]} : gmap string Z) []) "b" = mkStore {["a" := 1]} [].
Proof.
  apply (Del_semantics {["a" := 1]} [] ∅ "b"). reflexivity.
Defined.


(** C8. Unmatched Commit/Rollback are no-ops: on a store whose Diff Stack is
    empty, [Commit] and [Rollback] both return the store unchanged (same
    Base Store, same empty Diff Stack); neither has a failure result. *)
Theorem unmatched_Commit_Rollback_noop {T : Type} (s : KeyValueStore T) :
  transactions_ s = [] → Commit s = s ∧ Rollback s = s.
Proof.
  destruct s as [base layers]; cbn [transactions_]. intros ->.
  split; [apply Commit_idle|apply Rollback_idle].
Qed.

Lemma unmatched_Commit_Rollback_noop_witness :
  let s := mkStore ({["a" := 1]} : gmap string Z) [] in
  Commit s = s ∧ Rollback s = s.
Proof.
  intros s. apply (unmatched_Commit_Rollback_noop s). reflexivity.
Defined.

(** C10. Set overwrites a same-layer tombstone: with at least one
    transaction open, [Del key] records the tombstone in the innermost
    layer (the layer then holds the entry [key -> deleted], and [Get key]
    is absent); the following [Set key value] replaces that entry in the
    same layer by [key -> value], every other entry of the layer, the outer
    layers and the Base Store being as before the two calls (the store is
    the one a lone [Set] would have produced), and [Get key] returns
    [value]. *)
Theorem Set_overwrites_tombstone {T : Type} (base : gmap string T)
    (outer : list (gmap string (option T))) (top : gmap string (option T))
    (key : string) (value : T) :
  let s := mkStore base (outer ++ [top]) in
  Set_ (Del s key) key value = mkStore base (outer ++ [<[key := Some value]> top]) ∧
  Set_ (Del s key) key value = Set_ s key value ∧
  Get (Set_ (Del s key) key value) key = Some value ∧
  (∃ top1, Del s key = mkStore base (outer ++ [top1]) ∧
           top1 !! key = Some None ∧
           (∀ key', top1 !! key' = if decide (key' = key) then Some None else top !! key') ∧
           Get (Del s key) key = None ∧
           ∃ top2, Set_ (Del s key) key value = mkStore base (outer ++ [top2]) ∧
                   top2 !! key = Some (Some value) ∧
                   ∀ key', top2 !! key' =
                           if decide (key' = key) then Some (Some value) else top1 !! key').
Proof.
  intros s. unfold s.
  rewrite Del_in_transaction, !Set_in_transaction, insert_insert_eq.
  split; [done|]. split; [done|]. split.
  { apply Get_top, lookup_insert_eq. }
  exists (<[key := None]> top). split; [done|]. split; [apply lookup_insert_eq|].
  split.
  { intros key'. rewrite lookup_insert. by repeat case_decide; subst. }
  split.
  { apply Get_top, lookup_insert_eq. }
  exists (<[key := Some value]> top). split; [done|]. split; [apply lookup_insert_eq|].
  intros key'. rewrite !lookup_insert. by repeat case_decide; subst.
Qed.

(** ** Enumeration and counting over the Visible State *)

Section Enumeration.
Context {T : Type}.
Variable T_eqb : T → T → bool.
Implicit Types (s : KeyValueStore T) (state : gmap string T).

Lemma Keys_loop_filtered (w : T) (l : list (string * T)) (keys : list string) :
  foldl (λ keys kv, if T_eqb kv.2 w then keys ++ [kv.1] else keys) keys l
  = keys ++ (List.filter (λ kv, T_eqb kv.2 w) l).*1.
Proof.
  revert keys. induction l as [|kv l IH]; intros keys; cbn [foldl List.filter].
  - by rewrite app_nil_r.
  - rewrite IH. destruct (T_eqb kv.2 w); [|done].
    by rewrite fmap_cons, <-app_assoc.
Qed.

Lemma Keys_loop_unfiltered (l : list (string * T)) (keys : list string) :
  foldl (λ keys kv, keys ++ [kv.1]) keys l = keys ++ l.*1.
Proof.
  revert keys. induction l as [|kv l IH]; intros keys; cbn [foldl].
  - by rewrite app_nil_r.
  - by rewrite IH, fmap_cons, <-app_assoc.
Qed.

Lemma Keys_filtered s (w : T) :
  Keys T_eqb s (Some w) = (entries_equal_to T_eqb (BuildVisibleState s) w).*1.
Proof. unfold Keys. by rewrite Keys_loop_filtered. Qed.

Lemma Keys_unfiltered s :
  Keys T_eqb s None = (map_to_list (BuildVisibleState s)).*1.
Proof. unfold Keys. by rewrite Keys_loop_unfiltered. Qed.

(** The 32-bit counter of [Count] holds the number of matches modulo [2^32]. *)
Lemma Count_loop (w : T) (l : list (string * T)) (count : Z) :
  foldl (λ count kv, if T_eqb kv.2 w then to_uint32 (count + 1) else count) count l
  = if decide (List.filter (λ kv, T_eqb kv.2 w) l = [])
    then count
    else to_uint32 (count + Z.of_nat (length (List.filter (λ kv, T_eqb kv.2 w) l))).
Proof.
  revert count. induction l as [|kv l IH]; intros count; cbn [foldl List.filter].
  - done.
  - rewrite IH. destruct (T_eqb kv.2 w); [|done].
    destruct (decide (kv :: List.filter _ l = [])) as [Hnil|_]; [discriminate Hnil|].
    cbn [length].
    case_decide as Hl.
    + rewrite Hl. cbn [length]. f_equal; lia.
    + unfold to_uint32. rewrite Zplus_mod_idemp_l. f_equal; lia.
Qed.

Lemma Count_filtered s (w : T) :
  Count T_eqb s (Some w) =
    to_uint32 (Z.of_nat (length (entries_equal_to T_eqb (BuildVisibleState s) w))).
Proof.
  unfold Count. rewrite Count_loop. fold (entries_equal_to T_eqb (BuildVisibleState s) w).
  case_decide as Hl; [by rewrite Hl|]. by rewrite Z.add_0_l.
Qed.

Lemma elem_of_map_to_list_fst state (key : string) :
  key ∈ (map_to_list state).*1 ↔ is_Some (state !! key).
Proof.
  rewrite list_elem_of_fmap. split.
  - intros [[k v] [-> Hin]]. apply elem_of_map_to_list in Hin. by exists v.
  - intros [v Hv]. exists (key, v). split; [done|]. by apply elem_of_map_to_list.
Qed.

End Enumeration.

(** C9. Count/Keys/filter consistency, with the 32-bit result type of
    [Count] taken into account: in every reachable store
    state and for every filter value [v], [Keys v] has exactly as many
    elements as the Visible State has entries whose value equals [v], and
    [Count v], a 32-bit unsigned integer, is that number modulo [2^32], so
    it equals the length of [Keys v] whenever fewer than [2^32] entries
    match; with no filter, [Count] is the number of entries of the Visible
    State modulo [2^32] (the number itself below [2^32]), and [Keys] lists
    exactly the keys of the Visible State, each once. *)
Theorem Count_Keys_consistency {T : Type} (T_eqb : T → T → bool)
    (ops : list (Op T)) (v : T) :
  let s := run new_store ops in
  let state := BuildVisibleState s in
  Count T_eqb s (Some v) = to_uint32 (Z.of_nat (length (Keys T_eqb s (Some v)))) ∧
  (Z.of_nat (length (Keys T_eqb s (Some v))) < uint32_max →
   Count T_eqb s (Some v) = Z.of_nat (length (Keys T_eqb s (Some v)))) ∧
  length (Keys T_eqb s (Some v)) = length (entries_equal_to T_eqb state v) ∧
  Count T_eqb s None = to_uint32 (Z.of_nat (size state)) ∧
  (Z.of_nat (size state) < uint32_max → Count T_eqb s None = Z.of_nat (size state)) ∧
  length (Keys T_eqb s None) = size state ∧
  NoDup (Keys T_eqb s None) ∧
  ∀ key, key ∈ Keys T_eqb s None ↔ is_Some (state !! key).
Proof.
  intros s state.
  assert (length (Keys T_eqb s (Some v)) = length (entries_equal_to T_eqb state v))
    as Hlen by (by rewrite Keys_filtered, length_fmap).
  assert (Count T_eqb s (Some v) = to_uint32 (Z.of_nat (length (Keys T_eqb s (Some v)))))
    as Hcount by (by rewrite Count_filtered, Hlen).
  split; [done|]. split.
  { intros Hsmall. rewrite Hcount. apply to_uint32_small. lia. }
  split; [done|]. split; [done|]. split.
  { intros Hsmall. cbn [Count]. apply to_uint32_small. fold state. lia. }
  rewrite Keys_unfiltered. fold state. split; [|split].
  - by rewrite length_fmap, length_map_to_list.
  - apply NoDup_fst_map_to_list.
  - intros key. apply elem_of_map_to_list_fst.
Qed.

Lemma Count_Keys_consistency_witness :
  let s := run new_store [OpSet "a" 1; OpSet "b" 2; OpBegin; OpSet "c" 1; OpDel "b"] in
  Count Z.eqb s (Some 1) = Z.of_nat (length (Keys Z.eqb s (Some 1))) ∧
  Count Z.eqb s None = Z.of_nat (size (BuildVisibleState s)).
Proof.
  intros s.
  pose proof (Count_Keys_consistency Z.eqb
                [OpSet "a" 1; OpSet "b" 2; OpBegin; OpSet "c" 1; OpDel "b"] 1)
    as (_ & Hfiltered & _ & _ & Hall & _).
  split.
  - apply Hfiltered. vm_compute. reflexivity.
  - apply Hall. vm_compute. reflexivity.
Defined.

(** ** A store with [2^32] visible entries *)

Lemma distinct_key_inj (i j : nat) : distinct_key i = distinct_key j → i = j.
Proof.
  unfold distinct_key. cbn [String.append]. intros Heq.
  injection Heq as Heq. by apply (inj pretty).
Qed.

Lemma filter_all_true {A : Type} (f : A → bool) (l : list A) :
  Forall (λ x, f x = true) l → List.filter f l = l.
Proof.
  induction 1 as [|x l Hx _ IH]; [done|].
  cbn [List.filter]. by rewrite Hx, IH.
Qed.

Lemma run_fill_ops (n : nat) :
  ∃ m : gmap string Z,
    run new_store (fill_ops n) = mkStore m [] ∧
    size m = n ∧
    (∀ i, (n ≤ i)%nat → m !! distinct_key i = None) ∧
    (∀ key x, m !! key = Some x → x = 0).
Proof.
  induction n as [|n (m & Hrun & Hsize & Hfresh & Hzero)].
  - exists ∅. split; [done|]. split; [apply map_size_empty|].
    split; [intros; apply lookup_empty|]. intros key x Hx.
    by rewrite lookup_empty in Hx.
  - exists (<[distinct_key n := 0]> m).
    unfold fill_ops. rewrite seq_S, fmap_app. cbn [fmap list_fmap Nat.add].
    unfold run in *. rewrite foldl_snoc. fold (fill_ops n). rewrite Hrun.
    cbn [step]. rewrite Set_idle. split; [done|]. split; [|split].
    + rewrite map_size_insert_None; [by rewrite Hsize|]. by apply Hfresh.
    + intros i Hi. rewrite lookup_insert_ne.
      * apply Hfresh. lia.
      * intros Heq%distinct_key_inj. lia.
    + intros key x. rewrite lookup_insert. case_decide.
      * by intros [= <-].
      * apply Hzero.
Qed.

Lemma Count_fill_ops (n : nat) :
  let s := run new_store (fill_ops n) in
  Count Z.eqb s None = to_uint32 (Z.of_nat n) ∧
  Count Z.eqb s (Some 0) = to_uint32 (Z.of_nat n) ∧
  length (Keys Z.eqb s None) = n ∧
  length (Keys Z.eqb s (Some 0)) = n.
Proof.
  destruct (run_fill_ops n) as (m & -> & Hsize & _ & Hzero). cbn zeta.
  assert (entries_equal_to Z.eqb m 0 = map_to_list m) as Hall.
  { apply filter_all_true, Forall_forall. intros [key x] Hin.
    apply elem_of_map_to_list, Hzero in Hin. by subst x. }
  rewrite Count_filtered, Keys_filtered, Keys_unfiltered.
  change (BuildVisibleState (mkStore m [])) with m.
  rewrite Hall, !length_fmap, length_map_to_list, Hsize.
  split; [|done]. cbn [Count].
  change (BuildVisibleState (mkStore m [])) with m. by rewrite Hsize.
Qed.

(** C9 without the modulus does not hold: after [2^32] calls of Set on
    distinct keys (no transaction open) the Visible State has [2^32]
    entries, all with value 0; [Keys] returns [2^32] keys with or without
    the filter 0, and [Count] returns 0 in both cases. *)
Lemma Count_differs_from_Keys_length :
  let s := run new_store (fill_ops (Z.to_nat uint32_max)) in
  (Count Z.eqb s None = 0 ∧ Z.of_nat (length (Keys Z.eqb s None)) = 2 ^ 32) ∧
  (Count Z.eqb s (Some 0) = 0 ∧ Z.of_nat (length (Keys Z.eqb s (Some 0))) = 2 ^ 32) ∧
  Count Z.eqb s None ≠ Z.of_nat (length (Keys Z.eqb s None)) ∧
  Count Z.eqb s (Some 0) ≠ Z.of_nat (length (Keys Z.eqb s (Some 0))).
Proof.
  intros s. generalize (Count_fill_ops (Z.to_nat uint32_max)). fold s.
  generalize s. clear s. intros s (Hall & Hzero & Hkeys & Hkeys0).
  assert (Z.of_nat (Z.to_nat uint32_max) = 2 ^ 32) as Hn
    by (apply Z2Nat.id; unfold uint32_max; lia).
  assert (to_uint32 (2 ^ 32) = 0) as Hwrap by reflexivity.
  rewrite Hall, Hzero, Hkeys, Hkeys0, Hn, Hwrap.
  repeat split; lia.
Qed.

(** ** Concrete runs *)

(** Nested shadowing: the innermost tombstone hides the value below it, and
    each Rollback uncovers the next layer. *)
Example nested_shadowing :
  let s := run new_store [OpSet "k" 1; OpBegin; OpSet "k" 2; OpBegin; OpDel "k"] in
  Get s "k" = None ∧
  Get (Rollback s) "k" = Some 2 ∧
  Get (Rollback (Rollback s)) "k" = Some 1.
Proof. vm_compute. done. Qed.

(** A committed single-layer transaction leaves the store that the bare
    calls would have left. *)
Example commit_flattening :
  run new_store [OpBegin; OpSet "k" 5; OpSet "j" 6; OpDel "j"; OpCommit]
  = run new_store [OpSet "k" 5; OpSet "j" 6; OpDel "j"].
Proof. vm_compute. done. Qed.

(** A nested commit carries a tombstone down one layer without touching the
    Base Store; the outer commit then erases the key. *)
Example nested_commit_carries_tombstone :
  let s := run new_store [OpSet "k" 1; OpBegin; OpSet "k" 2; OpBegin; OpDel "k"; OpCommit] in
  transactions_ s = [{["k" := None]}] ∧
  data_ s = {["k" := 1]} ∧
  Get s "k" = None ∧
  Commit s = mkStore ∅ [].
Proof. vm_compute. done. Qed.

(** ** Writes and transaction calls, seen through the Visible State *)

Section VisibleEffects.
Context {T : Type}.
Implicit Types (s : KeyValueStore T) (base result : gmap string T).
Implicit Types (top below : gmap string (option T)).
Implicit Types (outer : list (gmap string (option T))).
Implicit Types (key : string) (value : T).

Lemma stack_shape s :
  (∃ base, s = mkStore base []) ∨ (∃ base outer top, s = mkStore base (outer ++ [top])).
Proof.
  destruct s as [base layers]. destruct (last layers) as [top|] eqn:Hlast.
  - right. apply last_Some in Hlast as [outer ->]. eauto.
  - left. apply last_None in Hlast as ->. eauto.
Qed.

Lemma BuildVisibleState_idle base : BuildVisibleState (mkStore base []) = base.
Proof. done. Qed.

Lemma BuildVisibleState_snoc base outer top :
  BuildVisibleState (mkStore base (outer ++ [top])) =
    apply_diff (BuildVisibleState (mkStore base outer)) top.
Proof. unfold BuildVisibleState; cbn [data_ transactions_]. by rewrite foldl_snoc. Qed.

Lemma apply_diff_empty result : apply_diff result ∅ = result.
Proof. unfold apply_diff. by rewrite map_to_list_empty. Qed.

Lemma apply_diff_insert_value result top key value :
  apply_diff result (<[key := Some value]> top) = <[key := value]> (apply_diff result top).
Proof.
  apply map_eq. intros key'. rewrite apply_diff_lookup, !lookup_insert.
  case_decide; [done|]. by rewrite apply_diff_lookup.
Qed.

Lemma apply_diff_insert_tombstone result top key :
  apply_diff result (<[key := None]> top) = delete key (apply_diff result top).
Proof.
  apply map_eq. intros key'. rewrite apply_diff_lookup, lookup_insert, lookup_delete.
  case_decide; [done|]. by rewrite apply_diff_lookup.
Qed.

Lemma apply_diff_union result below top :
  apply_diff result (top ∪ below) = apply_diff (apply_diff result below) top.
Proof.
  apply map_eq. intros key. rewrite !apply_diff_lookup, lookup_union.
  destruct (top !! key) as [[v|]|], (below !! key) as [[w|]|]; done.
Qed.

Lemma BuildVisibleState_Set s key value :
  BuildVisibleState (Set_ s key value) = <[key := value]> (BuildVisibleState s).
Proof.
  destruct (stack_shape s) as [[base ->]|(base & outer & top & ->)].
  - by rewrite Set_idle.
  - by rewrite Set_in_transaction, !BuildVisibleState_snoc, apply_diff_insert_value.
Qed.

Lemma BuildVisibleState_Del s key :
  BuildVisibleState (Del s key) = delete key (BuildVisibleState s).
Proof.
  destruct (stack_shape s) as [[base ->]|(base & outer & top & ->)].
  - by rewrite Del_idle.
  - by rewrite Del_in_transaction, !BuildVisibleState_snoc, apply_diff_insert_tombstone.
Qed.

Lemma BuildVisibleState_Begin s : BuildVisibleState (Begin s) = BuildVisibleState s.
Proof.
  destruct s as [base layers].
  by rewrite Begin_push, BuildVisibleState_snoc, apply_diff_empty.
Qed.

Lemma BuildVisibleState_Commit s : BuildVisibleState (Commit s) = BuildVisibleState s.
Proof.
  destruct (stack_shape s) as [[base ->]|(base & outer & top & ->)]; [done|].
  destruct (stack_shape (mkStore base outer)) as [[base' Heq]|(base' & outer' & below & Heq)];
    injection Heq as <- ->.
  - done.
  - rewrite <-app_assoc. cbn [app].
    rewrite Commit_nested.
    change (outer' ++ [below; top]) with (outer' ++ [below] ++ [top]).
    rewrite (app_assoc outer' [below] [top]).
    by rewrite !BuildVisibleState_snoc, apply_diff_union.
Qed.

Lemma depth_Commit s :
  length (transactions_ (Commit s)) = Nat.pred (length (transactions_ s)).
Proof.
  destruct (stack_shape s) as [[base ->]|(base & outer & top & ->)]; [done|].
  destruct (stack_shape (mkStore base outer)) as [[base' Heq]|(base' & outer' & below & Heq)];
    injection Heq as <- ->.
  - done.
  - rewrite <-app_assoc. cbn [app]. rewrite Commit_nested. cbn [transactions_].
    rewrite !length_app. cbn [length]. lia.
Qed.

Lemma depth_Rollback s :
  length (transactions_ (Rollback s)) = Nat.pred (length (transactions_ s)).
Proof.
  destruct (stack_shape s) as [[base ->]|(base & outer & top & ->)]; [done|].
  rewrite Rollback_in_transaction. cbn [transactions_].
  rewrite length_app. cbn [length]. lia.
Qed.

End VisibleEffects.

(** X1. A write through [Set], at any nesting depth, acts on the Visible
    State as a plain map assignment: the map [BuildVisibleState] computes
    afterwards is the one before with [key] bound to [value]; so [Get]
    returns [value] for [key] and what it returned before for every other
    key. *)
Theorem Set_then_Get {T : Type} (s : KeyValueStore T) (key key' : string) (value : T) :
  BuildVisibleState (Set_ s key value) = <[key := value]> (BuildVisibleState s) ∧
  Get (Set_ s key value) key = Some value ∧
  Get (Set_ s key value) key' = if decide (key' = key) then Some value else Get s key'.
Proof.
  split; [apply BuildVisibleState_Set|].
  rewrite !Get_BuildVisibleState, BuildVisibleState_Set.
  split; [apply lookup_insert_eq|].
  rewrite lookup_insert. case_decide as Hk; case_decide as Hk'; try done; by subst.
Qed.

(** X2. A delete through [Del], at any nesting depth, acts on the Visible
    State as a plain map erase: [Get] is absent for [key] afterwards and
    unchanged for every other key; deleting a key that was not visible
    leaves the Visible State as it was (inside a transaction a tombstone is
    still recorded). *)
Theorem Del_then_Get {T : Type} (s : KeyValueStore T) (key key' : string) :
  BuildVisibleState (Del s key) = delete key (BuildVisibleState s) ∧
  Get (Del s key) key = None ∧
  Get (Del s key) key' = (if decide (key' = key) then None else Get s key') ∧
  (Get s key = None → BuildVisibleState (Del s key) = BuildVisibleState s).
Proof.
  split; [apply BuildVisibleState_Del|].
  rewrite !Get_BuildVisibleState, BuildVisibleState_Del.
  split; [apply lookup_delete_eq|]. split.
  - rewrite lookup_delete. case_decide as Hk; case_decide as Hk'; try done; by subst.
  - intros Habsent. by apply delete_id.
Qed.

Lemma Del_then_Get_witness :
  BuildVisibleState (Del (mkStore ({["a" := 1]} : gmap string Z) [∅]) "b")
  = BuildVisibleState (mkStore ({["a" := 1]} : gmap string Z) [∅]).
Proof.
  apply (Del_then_Get (mkStore ({["a" := 1]} : gmap string Z) [∅]) "b" "b").
  reflexivity.
Defined.

(** X3. Opening a transaction changes nothing a reader can see, and
    committing it straight away gives back the very same store. *)
Theorem Begin_is_invisible {T : Type} (s : KeyValueStore T) (key : string) :
  BuildVisibleState (Begin s) = BuildVisibleState s ∧
  Get (Begin s) key = Get s key ∧
  data_ (Begin s) = data_ s ∧
  Commit (Begin s) = s.
Proof.
  split; [apply BuildVisibleState_Begin|]. split.
  { by rewrite !Get_BuildVisibleState, BuildVisibleState_Begin. }
  split; [done|].
  destruct (stack_shape s) as [[base ->]|(base & outer & top & ->)].
  - rewrite Begin_push. cbn [app]. by rewrite Commit_outermost, apply_diff_empty.
  - rewrite Begin_push, <-app_assoc. cbn [app].
    by rewrite Commit_nested, (left_id_L ∅ (∪)).
Qed.

(** X4. [Commit] never changes what a reader sees: whatever the depth, the
    map [BuildVisibleState] computes and every answer of [Get] are the
    same before and after. *)
Theorem Commit_preserves_visible_state {T : Type} (s : KeyValueStore T) (key : string) :
  BuildVisibleState (Commit s) = BuildVisibleState s ∧
  Get (Commit s) key = Get s key.
Proof.
  split; [apply BuildVisibleState_Commit|].
  by rewrite !Get_BuildVisibleState, BuildVisibleState_Commit.
Qed.

(** ** A transaction body of Set and Del calls *)

Section TransactionBody.
Context {T : Type}.
Implicit Types (s : KeyValueStore T) (base : gmap string T).
Implicit Types (top below : gmap string (option T)).
Implicit Types (outer : list (gmap string (option T))).
Implicit Types (muts : list (Mutation T)).

(** With no transaction open the calls act on the Base Store, one by one. *)
Lemma run_mutations_idle muts base :
  run (mkStore base []) (op_of_mutation <$> muts) =
    mkStore (foldl apply_entry base (entry_of_mutation <$> muts)) [].
Proof.
  revert base. induction muts as [|m muts IH]; intros base; [done|].
  rewrite !fmap_cons. unfold run in *. cbn [foldl]. destruct m as [key value|key].
  - cbn [op_of_mutation step]. rewrite Set_idle. apply IH.
  - cbn [op_of_mutation step]. rewrite Del_idle. apply IH.
Qed.

(** Inside a transaction they are recorded in the innermost diff. *)
Lemma run_mutations_in_transaction muts base outer top :
  run (mkStore base (outer ++ [top])) (op_of_mutation <$> muts) =
    mkStore base (outer ++ [foldl merge_entry top (entry_of_mutation <$> muts)]).
Proof.
  revert top. induction muts as [|m muts IH]; intros top; [done|].
  rewrite !fmap_cons. unfold run in *. cbn [foldl]. destruct m as [key value|key].
  - cbn [op_of_mutation step]. rewrite Set_in_transaction. apply IH.
  - cbn [op_of_mutation step]. rewrite Del_in_transaction. apply IH.
Qed.

Lemma merge_entries_union (l : list (string * option T)) top below :
  foldl merge_entry top l ∪ below = foldl merge_entry (top ∪ below) l.
Proof.
  revert top. induction l as [|[key e] l IH]; intros top; [done|].
  cbn [foldl]. rewrite IH. unfold merge_entry; cbn [fst snd].
  by rewrite insert_union_l.
Qed.

Lemma apply_diff_recorded (l : list (string * option T)) base :
  apply_diff base (foldl merge_entry ∅ l) = foldl apply_entry base l.
Proof.
  induction l as [|[key e] l IH] using rev_ind; [apply apply_diff_empty|].
  rewrite !foldl_snoc, <-IH. unfold merge_entry, apply_entry; cbn [fst snd].
  destruct e as [v|].
  - apply apply_diff_insert_value.
  - apply apply_diff_insert_tombstone.
Qed.

End TransactionBody.

(** X5. Commit flattening: wrapping any sequence of Set/Del calls in
    Begin ... Commit leaves exactly the store (Base Store and Diff Stack)
    that the same calls leave without the wrapping, whether or not other
    transactions are open around it. *)
Theorem Commit_flattens_transaction {T : Type} (s : KeyValueStore T)
    (muts : list (Mutation T)) :
  Commit (run (Begin s) (op_of_mutation <$> muts)) = run s (op_of_mutation <$> muts).
Proof.
  destruct (stack_shape s) as [[base ->]|(base & outer & below & ->)].
  - rewrite Begin_push, run_mutations_in_transaction, run_mutations_idle.
    cbn [app]. by rewrite Commit_outermost, apply_diff_recorded.
  - rewrite Begin_push, !run_mutations_in_transaction, <-app_assoc. cbn [app].
    by rewrite Commit_nested, merge_entries_union, (left_id_L ∅ (∪)).
Qed.

(** X6. Closing every open transaction with [Commit] (one call per open
    layer) empties the Diff Stack and makes the Base Store exactly the
    Visible State seen before; closing them all with [Rollback] empties the
    Diff Stack and leaves the Base Store as it was. *)
Theorem closing_all_transactions {T : Type} (s : KeyValueStore T) :
  Nat.iter (length (transactions_ s)) Commit s = mkStore (BuildVisibleState s) [] ∧
  Nat.iter (length (transactions_ s)) Rollback s = mkStore (data_ s) [].
Proof.
  remember (length (transactions_ s)) as depth eqn:Hdepth.
  split.
  - revert s Hdepth. induction depth as [|depth IH]; intros s Hdepth.
    + destruct s as [base layers]. symmetry in Hdepth.
      apply length_zero_iff_nil in Hdepth. cbn in Hdepth. by subst layers.
    + rewrite Nat.iter_succ_r, IH, BuildVisibleState_Commit; [done|].
      rewrite depth_Commit, <-Hdepth. done.
  - revert s Hdepth. induction depth as [|depth IH]; intros s Hdepth.
    + destruct s as [base layers]. symmetry in Hdepth.
      apply length_zero_iff_nil in Hdepth. cbn in Hdepth. by subst layers.
    + rewrite Nat.iter_succ_r, IH.
      * destruct (stack_shape s) as [[base ->]|(base & outer & top & ->)]; [done|].
        by rewrite Rollback_in_transaction.
      * rewrite depth_Rollback, <-Hdepth. done.
Qed.

(** X7. Rolling back the parent undoes a committed child: with at least two
    layers open, [Commit] followed by [Rollback] leaves the same store as
    two Rollbacks, namely the layers below the parent and the untouched
    Base Store. *)
Theorem Rollback_discards_committed_child {T : Type} (base : gmap string T)
    (outer : list (gmap string (option T))) (below top : gmap string (option T)) :
  let s := mkStore base (outer ++ [below; top]) in
  Rollback (Commit s) = mkStore base outer ∧
  Rollback (Commit s) = Rollback (Rollback s).
Proof.
  intros s. unfold s. rewrite Commit_nested, Rollback_in_transaction.
  split; [done|].
  change (outer ++ [below; top]) with (outer ++ [below] ++ [top]).
  rewrite app_assoc. by rewrite !Rollback_in_transaction.
Qed.

(** X8. The last write to a key wins: in every store state, a [Set] or [Del]
    of [key] followed by another [Set] or [Del] of the same key leaves
    exactly the store the second call alone would leave. *)
Theorem last_write_wins {T : Type} (s : KeyValueStore T) (key : string) (v w : T) :
  Set_ (Set_ s key v) key w = Set_ s key w ∧
  Set_ (Del s key) key w = Set_ s key w ∧
  Del (Set_ s key v) key = Del s key ∧
  Del (Del s key) key = Del s key.
Proof.
  destruct (stack_shape s) as [[base ->]|(base & outer & top & ->)].
  - repeat first [rewrite Set_idle | rewrite Del_idle].
    by rewrite insert_insert_eq, insert_delete_eq, delete_insert_eq, delete_delete_eq.
  - repeat first [rewrite Set_in_transaction | rewrite Del_in_transaction].
    by rewrite !insert_insert_eq.
Qed.

(** X9. Writes to different keys commute: for [key1 ≠ key2], two calls of
    Set/Del on the two keys leave the same store in either order. *)
Theorem writes_to_distinct_keys_commute {T : Type} (s : KeyValueStore T)
    (key1 key2 : string) (v1 v2 : T) :
  key1 ≠ key2 →
  Set_ (Set_ s key1 v1) key2 v2 = Set_ (Set_ s key2 v2) key1 v1 ∧
  Del (Set_ s key1 v1) key2 = Set_ (Del s key2) key1 v1 ∧
  Del (Del s key1) key2 = Del (Del s key2) key1.
Proof.
  intros Hne.
  destruct (stack_shape s) as [[base ->]|(base & outer & top & ->)].
  - repeat first [rewrite Set_idle | rewrite Del_idle].
    rewrite (insert_insert_ne base key1 key2) by done.
    rewrite (delete_insert_ne base key2 key1) by done.
    by rewrite (delete_delete base key1 key2).
  - repeat first [rewrite Set_in_transaction | rewrite Del_in_transaction].
    rewrite (insert_insert_ne top key1 key2) by done.
    rewrite (insert_insert_ne top key1 key2 (Some v1) None) by done.
    by rewrite (insert_insert_ne top key1 key2 None None).
Qed.

Lemma writes_to_distinct_keys_commute_witness :
  let s := mkStore ({["a" := 1]} : gmap string Z) [{["b" := None]}] in
  Set_ (Set_ s "a" 2) "b" 3 = Set_ (Set_ s "b" 3) "a" 2 ∧
  Del (Set_ s "a" 2) "b" = Set_ (Del s "b") "a" 2 ∧
  Del (Del s "a") "b" = Del (Del s "b") "a".
Proof.
  intros s. apply (writes_to_distinct_keys_commute s "a" "b" 2 3). discriminate.
Defined.

(** X10. Each call moves the nesting depth as its name says: [Begin] opens
    one layer, [Commit] and [Rollback] close one (none when none is open),
    [Set] and [Del] leave the depth alone. *)
Theorem depth_after_call {T : Type} (s : KeyValueStore T) (op : Op T) :
  length (transactions_ (step s op)) =
    match op with
    | OpBegin => S (length (transactions_ s))
    | OpCommit | OpRollback => Nat.pred (length (transactions_ s))
    | OpSet _ _ | OpDel _ => length (transactions_ s)
    end.
Proof.
  destruct op as [|key value|key| |]; cbn [step].
  - destruct s as [base layers]. rewrite Begin_push. cbn [transactions_].
    rewrite length_app. cbn [length]. lia.
  - destruct (stack_shape s) as [[base ->]|(base & outer & top & ->)]; [done|].
    rewrite Set_in_transaction. cbn [transactions_]. by rewrite !length_app.
  - destruct (stack_shape s) as [[base ->]|(base & outer & top & ->)]; [done|].
    rewrite Del_in_transaction. cbn [transactions_]. by rewrite !length_app.
  - apply depth_Commit.
  - apply depth_Rollback.
Qed.

(** X11. An open transaction shields the Base Store: while at least one
    layer is open, no call other than the Commit of the outermost layer
    changes the Base Store. *)
Theorem open_transaction_shields_base_store {T : Type} (s : KeyValueStore T) (op : Op T) :
  transactions_ s ≠ [] →
  op ≠ OpCommit ∨ (2 ≤ length (transactions_ s))%nat →
  data_ (step s op) = data_ s.
Proof.
  intros Hopen Hop.
  destruct (stack_shape s) as [[base ->]|(base & outer & top & ->)]; [done|].
  destruct op as [|key value|key| |]; cbn [step].
  - done.
  - by rewrite Set_in_transaction.
  - by rewrite Del_in_transaction.
  - destruct Hop as [Hop|Hdepth]; [done|].
    destruct (stack_shape (mkStore base outer)) as [[base' Heq]|(base' & outer' & below & Heq)];
      injection Heq as <- ->.
    + cbn in Hdepth. lia.
    + rewrite <-app_assoc. cbn [app]. by rewrite Commit_nested.
  - by rewrite Rollback_in_transaction.
Qed.

Lemma open_transaction_shields_base_store_witness :
  let s := mkStore ({["a" := 1]} : gmap string Z) [∅; {["a" := None]}] in
  data_ (step s OpCommit) = data_ s ∧ data_ (step s (OpDel "a")) = data_ s.
Proof.
  intros s. split.
  - apply (open_transaction_shields_base_store s OpCommit).
    + discriminate.
    + right. cbn. lia.
  - apply (open_transaction_shields_base_store s (OpDel "a")).
    + discriminate.
    + left. discriminate.
Defined.

(** ** Enumerations, related to [Get] *)

Section EnumerationByGet.
Context {T : Type}.
Variable T_eqb : T → T → bool.
Implicit Types (s : KeyValueStore T).

Lemma filter_fst_subseteq {A : Type} (f : string * A → bool) (l : list (string * A))
    (key : string) :
  key ∈ (List.filter f l).*1 → key ∈ l.*1.
Proof.
  rewrite !list_elem_of_fmap. intros (kv & -> & Hin).
  exists kv. split; [done|].
  apply list_elem_of_In. apply list_elem_of_In, filter_In in Hin. tauto.
Qed.

Lemma NoDup_filter_fst {A : Type} (f : string * A → bool) (l : list (string * A)) :
  NoDup l.*1 → NoDup (List.filter f l).*1.
Proof.
  induction l as [|kv l IH]; [done|].
  rewrite fmap_cons. intros [Hfresh Hnd]%NoDup_cons. cbn [List.filter].
  destruct (f kv); [|by apply IH].
  rewrite fmap_cons. apply NoDup_cons. split; [|by apply IH].
  intros Hin. by apply Hfresh, (filter_fst_subseteq f).
Qed.

Lemma Values_loop (l : list (string * T)) (vals : list T) :
  foldl (λ vals kv, vals ++ [kv.2]) vals l = vals ++ l.*2.
Proof.
  revert vals. induction l as [|kv l IH]; intros vals; cbn [foldl].
  - by rewrite app_nil_r.
  - by rewrite IH, fmap_cons, <-app_assoc.
Qed.

Lemma Values_entries s : Values s = (map_to_list (BuildVisibleState s)).*2.
Proof. unfold Values. by rewrite Values_loop. Qed.

End EnumerationByGet.

(** X12. [Keys] with a filter value [w] returns, each once, exactly the keys
    for which [Get] returns a value equal to [w] under [T]'s equality;
    [Keys] without a filter returns exactly the keys for which [Get]
    returns a value. *)
Theorem Keys_agree_with_Get {T : Type} (T_eqb : T → T → bool)
    (s : KeyValueStore T) (w : T) (key : string) :
  (key ∈ Keys T_eqb s (Some w) ↔ ∃ x, Get s key = Some x ∧ T_eqb x w = true) ∧
  NoDup (Keys T_eqb s (Some w)) ∧
  (key ∈ Keys T_eqb s None ↔ is_Some (Get s key)).
Proof.
  rewrite Keys_filtered, Keys_unfiltered, Get_BuildVisibleState.
  unfold entries_equal_to. split; [|split].
  - rewrite list_elem_of_fmap. split.
    + intros ([k x] & -> & Hin). apply list_elem_of_In, filter_In in Hin as [Hin Heq].
      apply list_elem_of_In, elem_of_map_to_list in Hin. by exists x.
    + intros (x & Hx & Heq). exists (key, x). split; [done|].
      apply list_elem_of_In, filter_In. split; [|done].
      by apply list_elem_of_In, elem_of_map_to_list.
  - apply NoDup_filter_fst, NoDup_fst_map_to_list.
  - apply elem_of_map_to_list_fst.
Qed.

(** X13. [Values] returns exactly the values [Get] can return, one element
    per visible key (equal values are not merged): its length is the
    number of entries of the Visible State, which is the length of the
    unfiltered [Keys]. *)
Theorem Values_agree_with_Get {T : Type} (T_eqb : T → T → bool)
    (s : KeyValueStore T) (v : T) :
  (v ∈ Values s ↔ ∃ key, Get s key = Some v) ∧
  length (Values s) = size (BuildVisibleState s) ∧
  length (Values s) = length (Keys T_eqb s None).
Proof.
  rewrite Values_entries, Keys_unfiltered, !length_fmap, length_map_to_list.
  split; [|done]. rewrite list_elem_of_fmap. split.
  - intros ([key x] & -> & Hin). exists key.
    rewrite Get_BuildVisibleState. by apply elem_of_map_to_list.
  - intros (key & Hget). exists (key, v). split; [done|].
    apply elem_of_map_to_list. by rewrite <-Get_BuildVisibleState.
Qed.

(** ** Show and the range of Count *)

Section ShowLoop.
Context {T : Type}.
Variable T_show : T → string.

(** From counter value [count] the loop writes the next
    [max_records - count] entries, or all of them if there are fewer; the
    counter never wraps because it stays at most [max_records]. *)
Lemma Show_loop_take (max_records : Z) (it : list (string * T)) (count : Z)
    (out : list string) :
  0 ≤ count ≤ max_records → max_records < uint32_max →
  Show_loop T_show max_records it count out =
    out ++ (show_line T_show <$> take (Z.to_nat (max_records - count)) it).
Proof.
  intros Hcount Hmax. revert count out Hcount.
  induction it as [|kv it IH]; intros count out Hcount; cbn [Show_loop].
  - by rewrite take_nil, app_nil_r.
  - rewrite Z.geb_leb. destruct (Z.leb_spec max_records count) as [Hge|Hlt].
    + replace (max_records - count) with 0 by lia. by rewrite app_nil_r.
    + rewrite to_uint32_small by lia. rewrite IH by lia.
      replace (Z.to_nat (max_records - count))
        with (S (Z.to_nat (max_records - (count + 1)))) by lia.
      cbn [take]. by rewrite fmap_cons, <-app_assoc.
Qed.

End ShowLoop.

(** X14. [Show] writes one line "key : value" per entry of the Visible
    State it visits and stops after [max_records] lines.  Whatever the
    order in which the hash table is visited: it writes
    [min max_records size] lines (none for [max_records = 0]); the lines
    are those of distinct entries of the Visible State, so every line
    shows a key together with the value [Get] returns for it and no key is
    shown twice; and when the Visible State has at most [max_records]
    entries, the lines written are those of all its entries, each once.
    The entries shown are the first ones visited. *)
Theorem Show_writes_first_entries {T : Type} (T_show : T → string)
    (s : KeyValueStore T) (iteration : list (string * T)) (max_records : Z) :
  visits (BuildVisibleState s) iteration →
  0 ≤ max_records < uint32_max →
  length (Show T_show iteration max_records)
    = Nat.min (Z.to_nat max_records) (size (BuildVisibleState s)) ∧
  (∃ shown, Show T_show iteration max_records = (show_line T_show <$> shown) ∧
            shown ⊆+ map_to_list (BuildVisibleState s) ∧
            NoDup shown.*1 ∧
            shown = take (Z.to_nat max_records) iteration) ∧
  (∀ line, line ∈ Show T_show iteration max_records →
           ∃ key v, Get s key = Some v ∧ line = show_line T_show (key, v)) ∧
  (Z.of_nat (size (BuildVisibleState s)) ≤ max_records →
   Show T_show iteration max_records
     ≡ₚ (show_line T_show <$> map_to_list (BuildVisibleState s))).
Proof.
  unfold visits. intros Hvisits Hmax.
  assert (Show T_show iteration max_records
          = (show_line T_show <$> take (Z.to_nat max_records) iteration)) as Hshow.
  { unfold Show. rewrite Show_loop_take by lia. by rewrite Z.sub_0_r. }
  assert (length iteration = size (BuildVisibleState s)) as Hlen.
  { by rewrite Hvisits, length_map_to_list. }
  assert (take (Z.to_nat max_records) iteration ⊆+ map_to_list (BuildVisibleState s))
    as Hsub.
  { rewrite <-Hvisits. apply sublist_submseteq, sublist_take. }
  rewrite Hshow. split; [|split; [|split]].
  - by rewrite length_fmap, length_take, Hlen.
  - exists (take (Z.to_nat max_records) iteration).
    split; [done|]. split; [done|]. split; [|done].
    rewrite fmap_take. eapply sublist_NoDup; [|apply sublist_take].
    rewrite Hvisits. apply NoDup_fst_map_to_list.
  - intros line ([key v] & -> & Hin)%list_elem_of_fmap.
    exists key, v. split; [|done].
    rewrite Get_BuildVisibleState. apply elem_of_map_to_list.
    eapply elem_of_submseteq; [exact Hin|exact Hsub].
  - intros Hall. rewrite take_ge by lia. by rewrite Hvisits.
Qed.

Lemma Show_writes_first_entries_witness :
  let s := run new_store [OpSet "a" 1; OpSet "b" 2; OpBegin; OpSet "c" 3; OpDel "a"] in
  let iteration := [("b", 2); ("c", 3)] in
  length (Show (λ x : Z, pretty x) iteration 1) = 1%nat ∧
  length (Show (λ x : Z, pretty x) iteration 100) = 2%nat.
Proof.
  intros s iteration.
  assert (visits (BuildVisibleState s) iteration) as Hvisits.
  { unfold visits. vm_compute. apply perm_swap. }
  split.
  - refine (eq_trans (proj1 (Show_writes_first_entries (λ x : Z, pretty x) s
                               iteration 1 Hvisits _)) _).
    + unfold uint32_max. lia.
    + vm_compute. reflexivity.
  - refine (eq_trans (proj1 (Show_writes_first_entries (λ x : Z, pretty x) s
                               iteration 100 Hvisits _)) _).
    + unfold uint32_max. lia.
    + vm_compute. reflexivity.
Defined.

(** X15. [Count] always returns a 32-bit unsigned value, and as long as the
    Visible State has fewer than [2^32] entries a filtered count never
    exceeds the unfiltered one. *)
Theorem Count_range {T : Type} (T_eqb : T → T → bool) (s : KeyValueStore T)
    (with_value : option T) (v : T) :
  0 ≤ Count T_eqb s with_value < uint32_max ∧
  (Z.of_nat (size (BuildVisibleState s)) < uint32_max →
   Count T_eqb s (Some v) ≤ Count T_eqb s None).
Proof.
  assert (∀ n, 0 ≤ to_uint32 n < uint32_max) as Hrange.
  { intros n. unfold to_uint32. apply Z.mod_pos_bound. by unfold uint32_max. }
  split.
  - destruct with_value as [w|]; [rewrite Count_filtered|cbn [Count]]; apply Hrange.
  - intros Hsmall. rewrite Count_filtered. cbn [Count].
    pose proof (filter_length_le (λ kv : string * T, T_eqb kv.2 v)
                  (map_to_list (BuildVisibleState s))) as Hle.
    rewrite length_map_to_list in Hle. unfold entries_equal_to.
    rewrite !to_uint32_small; lia.
Qed.

Lemma Count_range_witness :
  let s := run new_store [OpSet "a" 1; OpSet "b" 2; OpBegin; OpSet "c" 1] in
  Count Z.eqb s (Some 1) ≤ Count Z.eqb s None.
Proof.
  intros s. apply (Count_range Z.eqb s None 1). vm_compute. reflexivity.
Defined.

(** ** Transaction bodies with nested transactions *)

Section NestedBodies.
Context {T : Type}.
Implicit Types (base : gmap string T).
Implicit Types (top : gmap string (option T)).
Implicit Types (outer inner : list (gmap string (option T))).

(** A body that closes only the layers it has opened keeps the Base Store
    and every layer below the one it started in. *)
Lemma run_body_keeps_outer (ops : list (Op T)) (d d' : nat) base outer top inner :
  length inner = d →
  body_depth d ops = Some d' →
  ∃ top' inner',
    length inner' = d' ∧
    run (mkStore base (outer ++ top :: inner)) ops = mkStore base (outer ++ top' :: inner').
Proof.
  revert d top inner.
  induction ops as [|op ops IH]; intros d top inner Hlen Hbody.
  - injection Hbody as <-. by exists top, inner.
  - unfold run; cbn [foldl]; fold (run (T := T)).
    destruct op as [|key value|key| |]; cbn [body_depth step] in *.
    + rewrite Begin_push, <-app_assoc. cbn [app].
      apply (IH (S d)); [|done]. rewrite length_app. cbn [length]. lia.
    + destruct inner as [|t inner _] using rev_ind.
      * rewrite Set_in_transaction. by apply (IH d).
      * change (outer ++ top :: inner ++ [t]) with (outer ++ (top :: inner) ++ [t]).
        rewrite app_assoc, Set_in_transaction, <-app_assoc. cbn [app].
        apply (IH d); [|done]. by rewrite length_app in *.
    + destruct inner as [|t inner _] using rev_ind.
      * rewrite Del_in_transaction. by apply (IH d).
      * change (outer ++ top :: inner ++ [t]) with (outer ++ (top :: inner) ++ [t]).
        rewrite app_assoc, Del_in_transaction, <-app_assoc. cbn [app].
        apply (IH d); [|done]. by rewrite length_app in *.
    + destruct d as [|d0]; [done|].
      destruct inner as [|t inner _] using rev_ind; [done|].
      rewrite length_app in Hlen. cbn [length] in Hlen.
      destruct inner as [|b inner _] using rev_ind.
      * cbn [app]. rewrite Commit_nested. apply (IH d0); [|done]. cbn in *. lia.
      * rewrite <-(app_assoc inner [b] [t]).
        change (outer ++ top :: inner ++ [b] ++ [t])
          with (outer ++ (top :: inner) ++ [b; t]).
        rewrite app_assoc, Commit_nested, <-app_assoc. cbn [app].
        apply (IH d0); [|done]. rewrite !length_app in *. cbn [length] in *. lia.
    + destruct d as [|d0]; [done|].
      destruct inner as [|t inner _] using rev_ind; [done|].
      rewrite length_app in Hlen. cbn [length] in Hlen.
      change (outer ++ top :: inner ++ [t]) with (outer ++ (top :: inner) ++ [t]).
      rewrite app_assoc, Rollback_in_transaction.
      apply (IH d0); [lia|done].
Qed.

End NestedBodies.

(** X16. Rollback undoes a whole transaction body, nested transactions
    included: if the calls between a [Begin] and its [Rollback] are well
    bracketed (every Commit or Rollback among them closes a layer opened
    among them, and none is left open), then after the [Rollback] the
    store is the one before the [Begin], whatever was set, deleted,
    committed or rolled back in between. *)
Theorem Rollback_undoes_nested_body {T : Type} (s : KeyValueStore T) (body : list (Op T)) :
  body_depth 0 body = Some 0%nat →
  Rollback (run (Begin s) body) = s.
Proof.
  intros Hbody. destruct s as [base layers]. rewrite Begin_push.
  destruct (run_body_keeps_outer body 0 0 base layers ∅ [] eq_refl Hbody)
    as (top' & inner' & Hlen & ->).
  apply length_zero_iff_nil in Hlen as ->.
  by rewrite Rollback_in_transaction.
Qed.

Lemma Rollback_undoes_nested_body_witness :
  let s := mkStore ({["a" := 1]} : gmap string Z) [{["b" := Some 2]}] in
  Rollback (run (Begin s)
              [OpSet "a" 5; OpBegin; OpDel "b"; OpCommit; OpBegin; OpSet "c" 7;
               OpRollback; OpDel "a"]) = s.
Proof.
  intros s.
  apply (Rollback_undoes_nested_body s
           [OpSet "a" 5; OpBegin; OpDel "b"; OpCommit; OpBegin; OpSet "c" 7;
            OpRollback; OpDel "a"]).
  reflexivity.
Defined.
